(** * Abstract domains: the scaffolding combinator of [libredex/AbstractDomain.h]

    A shallow embedding of [AbstractValue], [AbstractDomainScaffolding] and the
    functional layer of [AbstractDomain], followed by the properties of the
    Top/Bottom case analysis.

    Conventions of the embedding.
    - A C++ method that mutates [*this] is a function from the object before
      the call to the object after it.  A method of [AbstractValue] that
      mutates [*this] and returns a [Kind] is a function to a pair
      (returned kind, value after the call).
    - A [const Derived&] parameter is the object it refers to, read at the
      moment of the call.
    - Objects that may alias live in a heap (a [gmap] from locations to
      objects); a method call through references is a heap transformer. *)

From stdpp Require Import base decidable option gmap strings pretty.

(** ** [AbstractValue<Derived>::Kind] *)

Module Kind.

Inductive t : Set := Bottom | Value | Top.

#[global] Instance eq_dec : EqDecision t.
Proof. solve_decision. Defined.

End Kind.

(** ** The [AbstractValue] interface

    The pure virtual methods of [AbstractValue<Derived>], together with the
    default constructor that its destructor's [static_assert] demands. *)

Module AbstractValue.

Class t (V : Type) : Type := Build {
  (* Derived() *)
  ctor : V;
  (* virtual void clear() *)
  clear : V → V;
  (* virtual Kind kind() const *)
  kind : V → Kind.t;
  (* virtual bool leq(const Derived& other) const *)
  leq : V → V → bool;
  (* virtual bool equals(const Derived& other) const *)
  equals : V → V → bool;
  (* virtual Kind join_with(const Derived& other) *)
  join_with : V → V → Kind.t * V;
  (* virtual Kind widen_with(const Derived& other) *)
  widen_with : V → V → Kind.t * V;
  (* virtual Kind meet_with(const Derived& other) *)
  meet_with : V → V → Kind.t * V;
  (* virtual Kind narrow_with(const Derived& other) *)
  narrow_with : V → V → Kind.t * V;
}.

#[global] Hint Mode t ! : typeclass_instances.

(** A value holds no representation resources when it is as the default
    constructor left it, or as [clear()] left it. *)
Inductive cleared `{t V} : V → Prop :=
  | cleared_ctor : cleared ctor
  | cleared_clear (v : V) : cleared (clear v).

(** What the scaffolding relies on when it delegates comparisons: on the
    values, [equals] is the symmetric part of [leq], and any two values
    without resources are equal. *)
Class Lawful (V : Type) `{t V} : Prop := {
  equals_leq (v w : V) : equals v w = leq v w && leq w v;
  equals_cleared (v w : V) : cleared v → cleared w → equals v w = true;
}.

End AbstractValue.

(** ** Outcome of a constructor guarded by [always_assert] *)

Inductive Checked (A : Type) : Type :=
  | Returned (a : A)
  | AssertionFailed.
Arguments Returned {A} a.
Arguments AssertionFailed {A}.

(** ** [AbstractDomainScaffolding<Value, Derived>] *)

Module AbstractDomainScaffolding.

Record t (V : Type) : Type := Build {
  m_kind : Kind.t;
  m_value : V;
}.
Arguments Build {V} m_kind m_value.
Arguments m_kind {V} _.
Arguments m_value {V} _.

Section Methods.
Context {V : Type} `{!AbstractValue.t V}.

#[local] Abbreviation D := (t V).

(* AbstractDomainScaffolding() { m_kind = m_value.kind(); } *)
Definition ctor : D :=
  let m_value := AbstractValue.ctor in
  {| m_kind := AbstractValue.kind m_value; m_value := m_value |}.

(* explicit AbstractDomainScaffolding(AbstractValueKind kind) : m_kind(kind)
   { always_assert(kind != AbstractValueKind::Value); } *)
Definition ctor_kind (kind : Kind.t) : Checked D :=
  let this := {| m_kind := kind; m_value := AbstractValue.ctor |} in
  if bool_decide (kind ≠ Kind.Value) then Returned this else AssertionFailed.

Definition kind (this : D) : Kind.t := m_kind this.

Definition is_bottom (this : D) : bool :=
  bool_decide (m_kind this = Kind.Bottom).

Definition is_top (this : D) : bool :=
  bool_decide (m_kind this = Kind.Top).

Definition is_value (this : D) : bool :=
  bool_decide (m_kind this = Kind.Value).

Definition set_to_bottom (this : D) : D :=
  {| m_kind := Kind.Bottom; m_value := AbstractValue.clear (m_value this) |}.

Definition set_to_top (this : D) : D :=
  {| m_kind := Kind.Top; m_value := AbstractValue.clear (m_value this) |}.

(** The [assert] that precedes the last [return] of [leq]. *)
Definition leq_assertion (this other : D) : bool :=
  bool_decide (m_kind this = Kind.Value) &&
  bool_decide (m_kind other = Kind.Value).

Definition leq (this other : D) : bool :=
  if is_bottom this then true
  else if is_bottom other then false
  else if is_top other then true
  else if is_top this then false
  else AbstractValue.leq (m_value this) (m_value other).

Definition equals (this other : D) : bool :=
  bool_decide (m_kind this = m_kind other) &&
  AbstractValue.equals (m_value this) (m_value other).

(** The body of the lambdas [value_join], [value_widening], [value_meet] and
    [value_narrowing]: [m_kind = m_value.op(other.m_value)]. *)
Definition value_operation (op : V → V → Kind.t * V) (other this : D) : D :=
  let '(k, v) := op (m_value this) (m_value other) in
  {| m_kind := k; m_value := v |}.

Definition join_like_operation_with
    (other : D) (operation : D → D) (this : D) : D :=
  if is_top this || is_bottom other then this
  else if is_top other then set_to_top this
  else if is_bottom this then
    {| m_kind := m_kind other; m_value := m_value other |}
  else operation this.

Definition meet_like_operation_with
    (other : D) (operation : D → D) (this : D) : D :=
  if is_bottom this || is_top other then this
  else if is_bottom other then set_to_bottom this
  else if is_top this then
    {| m_kind := m_kind other; m_value := m_value other |}
  else operation this.

Definition join_with (this other : D) : D :=
  let value_join := value_operation AbstractValue.join_with other in
  join_like_operation_with other value_join this.

Definition widen_with (this other : D) : D :=
  let value_widening := value_operation AbstractValue.widen_with other in
  join_like_operation_with other value_widening this.

Definition meet_with (this other : D) : D :=
  let value_meet := value_operation AbstractValue.meet_with other in
  meet_like_operation_with other value_meet this.

Definition narrow_with (this other : D) : D :=
  let value_narrowing := value_operation AbstractValue.narrow_with other in
  meet_like_operation_with other value_narrowing this.

(* protected: *)

Definition get_value (this : D) : V := m_value this.

Definition set_to_value (value : V) (this : D) : D :=
  {| m_kind := AbstractValue.kind value; m_value := value |}.

Definition normalize (this : D) : D :=
  let m_kind := AbstractValue.kind (m_value this) in
  if bool_decide (m_kind = Kind.Bottom) || bool_decide (m_kind = Kind.Top)
  then {| m_kind := m_kind; m_value := AbstractValue.clear (m_value this) |}
  else {| m_kind := m_kind; m_value := m_value this |}.

(** The representation invariant: an extremal element holds no
    representation resources. *)
Definition coalesced (this : D) : Prop :=
  m_kind this ≠ Kind.Value → AbstractValue.cleared (m_value this).

End Methods.

End AbstractDomainScaffolding.

(** ** The [AbstractDomain] interface and its functional layer *)

Module AbstractDomain.

(** The pure virtual methods of [AbstractDomain<Derived>]. *)
Class t (D : Type) : Type := Build {
  is_bottom : D → bool;
  is_top : D → bool;
  leq : D → D → bool;
  equals : D → D → bool;
  set_to_bottom : D → D;
  set_to_top : D → D;
  join_with : D → D → D;
  widen_with : D → D → D;
  meet_with : D → D → D;
  narrow_with : D → D → D;
}.

#[global] Hint Mode t ! : typeclass_instances.

(** Objects are held in a heap, so that [*this] and [other] may be one and
    the same object. *)
Definition loc : Set := positive.

Section Functional.
Context {D : Type}.

#[local] Abbreviation heap := (gmap loc D).

(** [this->method(other)] for an in-place [method]: both references are
    read, and the object at [this] is overwritten with the result.  A
    dangling reference has no behaviour ([None]). *)
Definition call_with (method : D → D → D) (this other : loc) (h : heap)
    : option heap :=
  a ← h !! this;
  b ← h !! other;
  Some (<[this := method a b]> h).

(** The shape shared by [join], [widening], [meet] and [narrowing]:
    [Derived tmp(static_cast<const Derived&>( *this)); tmp.method(other);
    return tmp;].  The local [tmp] is a new object, returned by value, whose
    storage is released on return. *)
Definition copy_then (method : D → D → D) (this other : loc) (h : heap)
    : option (D * heap) :=
  a ← h !! this;
  let tmp := fresh (dom h) in
  h' ← call_with method tmp other (<[tmp := a]> h);
  r ← h' !! tmp;
  Some (r, delete tmp h').

Context `{!t D}.

Definition join : loc → loc → heap → option (D * heap) := copy_then join_with.
Definition widening : loc → loc → heap → option (D * heap) :=
  copy_then widen_with.
Definition meet : loc → loc → heap → option (D * heap) := copy_then meet_with.
Definition narrowing : loc → loc → heap → option (D * heap) :=
  copy_then narrow_with.

End Functional.

End AbstractDomain.

(** [AbstractDomainScaffolding<Value, Derived>] overrides every pure virtual
    method of [AbstractDomain<Derived>]. *)
#[global] Instance scaffolding_domain {V : Type} `{!AbstractValue.t V}
    : AbstractDomain.t (AbstractDomainScaffolding.t V) := {|
  AbstractDomain.is_bottom := AbstractDomainScaffolding.is_bottom;
  AbstractDomain.is_top := AbstractDomainScaffolding.is_top;
  AbstractDomain.leq := AbstractDomainScaffolding.leq;
  AbstractDomain.equals := AbstractDomainScaffolding.equals;
  AbstractDomain.set_to_bottom := AbstractDomainScaffolding.set_to_bottom;
  AbstractDomain.set_to_top := AbstractDomainScaffolding.set_to_top;
  AbstractDomain.join_with := AbstractDomainScaffolding.join_with;
  AbstractDomain.widen_with := AbstractDomainScaffolding.widen_with;
  AbstractDomain.meet_with := AbstractDomainScaffolding.meet_with;
  AbstractDomain.narrow_with := AbstractDomainScaffolding.narrow_with;
|}.

(** ** A derived domain

    [AbstractDomain]'s destructor demands, by [static_assert], that the final
    class has the static factories [bottom()] and [top()]; this header does
    not define them. *)

Module Derived.

Section Factories.
Context {V : Type} `{!AbstractValue.t V}.

(** Modelled from the spec: the factory producers [bottom()] and [top()] of
    a derived domain, absent from the header; they are taken to be the
    elements that the convenience constructor "for creating Bottom and Top"
    builds. *)
Definition bottom : AbstractDomainScaffolding.t V :=
  {| AbstractDomainScaffolding.m_kind := Kind.Bottom;
     AbstractDomainScaffolding.m_value := AbstractValue.ctor |}.

Definition top : AbstractDomainScaffolding.t V :=
  {| AbstractDomainScaffolding.m_kind := Kind.Top;
     AbstractDomainScaffolding.m_value := AbstractValue.ctor |}.

End Factories.

End Derived.

(** ** A client value

    The header's sample usage sketches [MyAbstractValue], a value that keeps
    a table and releases it in [clear()].  Here the table is a finite set of
    register numbers that saturates: a set with more than [capacity]
    elements stands for Top. *)

Module MyAbstractValue.

Definition capacity : nat := 2.

Definition m_table_kind (m_table : gset nat) : Kind.t :=
  if bool_decide (capacity < size m_table) then Kind.Top else Kind.Value.

#[global] Instance value : AbstractValue.t (gset nat) := {|
  AbstractValue.ctor := ∅;
  AbstractValue.clear := λ _, ∅;
  AbstractValue.kind := m_table_kind;
  AbstractValue.leq := λ m_table other, bool_decide (m_table ⊆ other);
  AbstractValue.equals := λ m_table other, bool_decide (m_table = other);
  AbstractValue.join_with := λ m_table other,
    let m_table := m_table ∪ other in (m_table_kind m_table, m_table);
  AbstractValue.widen_with := λ m_table other,
    let m_table := m_table ∪ other in (m_table_kind m_table, m_table);
  AbstractValue.meet_with := λ m_table other,
    let m_table := m_table ∩ other in (m_table_kind m_table, m_table);
  AbstractValue.narrow_with := λ m_table other,
    let m_table := m_table ∩ other in (m_table_kind m_table, m_table);
|}.

(** [MyAbstractDomain]: the scaffolding over [MyAbstractValue]. *)
#[local] Abbreviation MyAbstractDomain := (AbstractDomainScaffolding.t (gset nat)).

Definition of_list (k : Kind.t) (l : list nat) : MyAbstractDomain :=
  {| AbstractDomainScaffolding.m_kind := k;
     AbstractDomainScaffolding.m_value := list_to_set l |}.

End MyAbstractValue.

(** ** The liveness client of [test/integ/MonotonicFixpointTest.cpp] *)

(** The accessors of [IRInstruction] that [analyze_instruction] reads; the
    class itself is declared outside these sources, so an instruction is the
    record of what they return.  [srcs] lists [src(0)], ..., [src(srcs_size()
    - 1)]. *)
Module IRInstruction.

Record t : Set := Build {
  dests_size : nat;
  dest : N;
  srcs : list N;
  has_range : bool;
  range_base : N;
  range_size : nat;
}.

End IRInstruction.

(** An entry of a [Block]: a tagged union of which the analysis looks at the
    tag [type] and, under [MFLOW_OPCODE], at [insn] (the test also reads
    [pos->line] under [MFLOW_POSITION]).  The remaining tags are one
    constructor. *)
Module MethodItemEntry.

Inductive t : Set :=
  | MFLOW_OPCODE (insn : IRInstruction.t)
  | MFLOW_POSITION (line : N)
  | MFLOW_OTHER.

Definition is_opcode (e : t) : bool :=
  match e with MFLOW_OPCODE _ => true | _ => false end.

End MethodItemEntry.

Module IRFixpointIterator.

(** [size_t] arithmetic. *)
Definition size_t_add (a b : N) : N := ((a + b) mod 2 ^ 64)%N.

(* std::ostringstream ss; ss << "v" << i; return ss.str(); *)
Definition get_register (i : N) : string := "v" +:+ pretty i.

Section Analysis.
(** [LivenessDomain] is [HashedSetAbstractDomain<std::string>], defined
    outside these sources; the analysis is parametric in the domain and in
    its [add] and [remove]. *)
Context {LivenessDomain : Type}.
Context (add remove : string → LivenessDomain → LivenessDomain).

Definition analyze_instruction (insn : IRInstruction.t)
    (current_state : LivenessDomain) : LivenessDomain :=
  let current_state :=
    if bool_decide (IRInstruction.dests_size insn ≠ 0)
    then remove (get_register (IRInstruction.dest insn)) current_state
    else current_state in
  let current_state :=
    foldl (λ st src, add (get_register src) st)
      current_state (IRInstruction.srcs insn) in
  if IRInstruction.has_range insn
  then foldl
         (λ st i, add (get_register
                         (size_t_add (IRInstruction.range_base insn)
                                     (N.of_nat i))) st)
         current_state (seq 0 (IRInstruction.range_size insn))
  else current_state.

(** The loop runs from [block->rbegin()] to [block->rend()]. *)
Definition analyze_node (block : list MethodItemEntry.t)
    (current_state : LivenessDomain) : LivenessDomain :=
  foldl (λ st it,
           match it with
           | MethodItemEntry.MFLOW_OPCODE insn => analyze_instruction insn st
           | _ => st
           end)
    current_state (reverse block).

Definition analyze_edge (source_block target_block : nat)
    (exit_state_at_source : LivenessDomain) : LivenessDomain :=
  exit_state_at_source.

End Analysis.

(** The registers an instruction reads, by name: its sources, then its
    range when the opcode has one. *)
Definition uses (insn : IRInstruction.t) : list string :=
  (get_register <$> IRInstruction.srcs insn) ++
  (if IRInstruction.has_range insn
   then (λ i, get_register (size_t_add (IRInstruction.range_base insn)
                                       (N.of_nat i)))
          <$> seq 0 (IRInstruction.range_size insn)
   else []).

(** The register an instruction writes, if any. *)
Definition defines (insn : IRInstruction.t) (r : string) : Prop :=
  IRInstruction.dests_size insn ≠ 0 ∧
  r = get_register (IRInstruction.dest insn).

End IRFixpointIterator.

(** ** [opt/virtual_scope/MethodDevirtualizationPass.h] *)

Module MethodDevirtualizationPass.

Record CallSiteMetrics : Set := {
  num_virtual_calls : N;
  num_direct_calls : N;
  num_super_calls : N;
}.

Record t : Set := Build {
  m_staticize_vmethods_not_using_this : bool;
  m_staticize_dmethods_not_using_this : bool;
  m_staticize_vmethods_using_this : bool;
  m_staticize_dmethods_using_this : bool;
  m_call_site_metrics : CallSiteMetrics;
}.

Section Configure.
(** [PassConfig] is declared in [Pass.h], outside these sources;
    [get pc name dflt] stands for the boolean that [pc.get(name, dflt, param)]
    stores in [param]. *)
Context {PassConfig : Type} (get : PassConfig → string → bool → bool).

Definition configure_pass (pc : PassConfig) (this : t) : t :=
  {| m_staticize_vmethods_not_using_this :=
       get pc "staticize_vmethods_not_using_this" true;
     m_staticize_dmethods_not_using_this :=
       get pc "staticize_dmethods_not_using_this" true;
     m_staticize_vmethods_using_this :=
       get pc "staticize_vmethods_using_this" false;
     m_staticize_dmethods_using_this :=
       get pc "staticize_dmethods_using_this" false;
     m_call_site_metrics := m_call_site_metrics this |}.

End Configure.

End MethodDevirtualizationPass.

(** ** What a value-level operation may be asked to guarantee *)

Module ValueLaws.

Section Laws.
Context {V : Type} `{!AbstractValue.t V}.

(** The result of [op] on [v] and [w] is not Bottom and, when it is a regular
    value, it is above both arguments. *)
Definition upper_bound (op : V → V → Kind.t * V) (v w : V) : Prop :=
  (op v w).1 ≠ Kind.Bottom ∧
  ((op v w).1 = Kind.Value →
     AbstractValue.leq v (op v w).2 = true ∧
     AbstractValue.leq w (op v w).2 = true).

(** The result of [op] on [v] and [w] is not Top and, when it is a regular
    value, it is below both arguments. *)
Definition lower_bound (op : V → V → Kind.t * V) (v w : V) : Prop :=
  (op v w).1 ≠ Kind.Top ∧
  ((op v w).1 = Kind.Value →
     AbstractValue.leq (op v w).2 v = true ∧
     AbstractValue.leq (op v w).2 w = true).

(** [op] itself releases the value when it returns an extremal kind. *)
Definition releases (op : V → V → Kind.t * V) (v w : V) : Prop :=
  (op v w).1 ≠ Kind.Value → AbstractValue.cleared (op v w).2.

End Laws.

End ValueLaws.

(** ** A set of register names

    A stand-in for the set operations of the liveness domain, used to run the
    analysis on concrete instructions. *)

Module RegisterSet.

Definition add (x : string) (s : gset string) : gset string := {[x]} ∪ s.
Definition remove (x : string) (s : gset string) : gset string := s ∖ {[x]}.
Definition contains (x : string) (s : gset string) : bool :=
  bool_decide (x ∈ s).

End RegisterSet.

(** [add-int v0, v0, v1]: one destination, two sources, no range. *)
Definition add_int_v0_v0_v1 : IRInstruction.t :=
  {| IRInstruction.dests_size := 1; IRInstruction.dest := 0;
     IRInstruction.srcs := [0; 1]%N; IRInstruction.has_range := false;
     IRInstruction.range_base := 0; IRInstruction.range_size := 0 |}.

(** ** The in-place operations as programs over the heap

    The methods of the scaffolding once more, statement by statement, with
    [this] and [other] as references: every read goes through the heap at
    the moment the statement runs, every assignment to [m_kind] or [m_value]
    is a store to the object at [this].  A value-level operation reads the
    two values at the call and its result is stored in [this->m_value]. *)

Module ByReference.

Section Methods.
Context {V : Type} `{!AbstractValue.t V}.

#[local] Abbreviation heap := (gmap AbstractDomain.loc (AbstractDomainScaffolding.t V)).

(* this->m_kind = k *)
Definition store_m_kind (this : AbstractDomain.loc) (k : Kind.t) (h : heap)
    : option heap :=
  a ← h !! this;
  Some (<[this := {| AbstractDomainScaffolding.m_kind := k;
                     AbstractDomainScaffolding.m_value :=
                       AbstractDomainScaffolding.m_value a |}]> h).

(* this->m_value = v *)
Definition store_m_value (this : AbstractDomain.loc) (v : V) (h : heap)
    : option heap :=
  a ← h !! this;
  Some (<[this := {| AbstractDomainScaffolding.m_kind :=
                       AbstractDomainScaffolding.m_kind a;
                     AbstractDomainScaffolding.m_value := v |}]> h).

(* m_kind = AbstractValueKind::Bottom; m_value.clear(); *)
Definition set_to_bottom (this : AbstractDomain.loc) (h : heap) : option heap :=
  h ← store_m_kind this Kind.Bottom h;
  a ← h !! this;
  store_m_value this
    (AbstractValue.clear (AbstractDomainScaffolding.m_value a)) h.

(* m_kind = AbstractValueKind::Top; m_value.clear(); *)
Definition set_to_top (this : AbstractDomain.loc) (h : heap) : option heap :=
  h ← store_m_kind this Kind.Top h;
  a ← h !! this;
  store_m_value this
    (AbstractValue.clear (AbstractDomainScaffolding.m_value a)) h.

(* [this, &other]() { m_kind = m_value.op(other.m_value); } *)
Definition value_operation (op : V → V → Kind.t * V)
    (this other : AbstractDomain.loc) (h : heap) : option heap :=
  a ← h !! this;
  b ← h !! other;
  let '(k, v) := op (AbstractDomainScaffolding.m_value a)
                    (AbstractDomainScaffolding.m_value b) in
  h ← store_m_value this v h;
  store_m_kind this k h.

Definition join_like_operation_with (this other : AbstractDomain.loc)
    (operation : heap → option heap) (h : heap) : option heap :=
  a ← h !! this;
  b ← h !! other;
  if AbstractDomainScaffolding.is_top a || AbstractDomainScaffolding.is_bottom b
  then Some h
  else if AbstractDomainScaffolding.is_top b then set_to_top this h
  else if AbstractDomainScaffolding.is_bottom a then
    h ← store_m_kind this (AbstractDomainScaffolding.m_kind b) h;
    b ← h !! other;
    store_m_value this (AbstractDomainScaffolding.m_value b) h
  else operation h.

Definition meet_like_operation_with (this other : AbstractDomain.loc)
    (operation : heap → option heap) (h : heap) : option heap :=
  a ← h !! this;
  b ← h !! other;
  if AbstractDomainScaffolding.is_bottom a || AbstractDomainScaffolding.is_top b
  then Some h
  else if AbstractDomainScaffolding.is_bottom b then set_to_bottom this h
  else if AbstractDomainScaffolding.is_top a then
    h ← store_m_kind this (AbstractDomainScaffolding.m_kind b) h;
    b ← h !! other;
    store_m_value this (AbstractDomainScaffolding.m_value b) h
  else operation h.

Definition join_with (this other : AbstractDomain.loc) : heap → option heap :=
  let value_join := value_operation AbstractValue.join_with this other in
  join_like_operation_with this other value_join.

Definition widen_with (this other : AbstractDomain.loc) : heap → option heap :=
  let value_widening := value_operation AbstractValue.widen_with this other in
  join_like_operation_with this other value_widening.

Definition meet_with (this other : AbstractDomain.loc) : heap → option heap :=
  let value_meet := value_operation AbstractValue.meet_with this other in
  meet_like_operation_with this other value_meet.

Definition narrow_with (this other : AbstractDomain.loc) : heap → option heap :=
  let value_narrowing := value_operation AbstractValue.narrow_with this other in
  meet_like_operation_with this other value_narrowing.

End Methods.

End ByReference.

(** ** A second client value

    The same saturating table, for a client that releases the table itself
    whenever an operation returns Top, and whose widening is the coarsest
    one: it gives up at once and returns Top. *)

Module MyReleasingValue.

Definition settle (m_table : gset nat) : Kind.t * gset nat :=
  if bool_decide (MyAbstractValue.capacity < size m_table)
  then (Kind.Top, ∅) else (Kind.Value, m_table).

Definition value : AbstractValue.t (gset nat) := {|
  AbstractValue.ctor := ∅;
  AbstractValue.clear := λ _, ∅;
  AbstractValue.kind := MyAbstractValue.m_table_kind;
  AbstractValue.leq := λ m_table other, bool_decide (m_table ⊆ other);
  AbstractValue.equals := λ m_table other, bool_decide (m_table = other);
  AbstractValue.join_with := λ m_table other, settle (m_table ∪ other);
  AbstractValue.widen_with := λ _ _, (Kind.Top, ∅);
  AbstractValue.meet_with := λ m_table other, settle (m_table ∩ other);
  AbstractValue.narrow_with := λ m_table other, settle (m_table ∩ other);
|}.

End MyReleasingValue.

(** * Properties *)

Import AbstractDomainScaffolding.

(** Case analysis on the kinds of the receiver and of the argument, then on
    the pair returned by a value-level operation. *)
Ltac by_kinds this other :=
  destruct this as [[] ?], other as [[] ?]; simpl in *;
  try discriminate; try tauto.

Ltac unfold_methods :=
  unfold join_with, widen_with, meet_with, narrow_with,
    join_like_operation_with, meet_like_operation_with, value_operation,
    set_to_top, set_to_bottom, leq, equals, is_top, is_bottom, is_value in *.

(** ** The order *)

Section Order.
Context {V : Type} `{!AbstractValue.t V}.
Implicit Types this other a : t V.

(** Wherever control reaches the [assert] of [leq], its condition holds. *)
Lemma leq_assertion_holds this other :
  is_bottom this = false → is_bottom other = false →
  is_top other = false → is_top this = false →
  leq_assertion this other = true.
Proof. unfold leq_assertion. by_kinds this other. Qed.

Lemma ctor_kind_bottom : ctor_kind Kind.Bottom = Returned (Derived.bottom (V:=V)).
Proof. reflexivity. Qed.

Lemma ctor_kind_top : ctor_kind Kind.Top = Returned (Derived.top (V:=V)).
Proof. reflexivity. Qed.

(** C6: [bottom().leq(a)] and [a.leq(top())] hold for every [a]; a Bottom
    element is below everything, everything is below a Top element, a
    non-Bottom element is never below Bottom, a Top element is never below a
    non-Top element, and two Value-kind elements are compared by the
    value-level [leq]. *)
Theorem leq_rules a this other :
  leq Derived.bottom a = true ∧
  leq a Derived.top = true ∧
  (m_kind this = Kind.Bottom → leq this other = true) ∧
  (m_kind other = Kind.Top → leq this other = true) ∧
  (m_kind this ≠ Kind.Bottom → m_kind other = Kind.Bottom →
     leq this other = false) ∧
  (m_kind this = Kind.Top → m_kind other ≠ Kind.Top →
     leq this other = false) ∧
  (m_kind this = Kind.Value → m_kind other = Kind.Value →
     leq this other = AbstractValue.leq (m_value this) (m_value other)).
Proof.
  repeat apply conj.
  - reflexivity.
  - destruct a as [[] ?]; reflexivity.
  - intros Hb. unfold leq, is_bottom. rewrite Hb. reflexivity.
  - intros Ht. unfold leq, is_bottom, is_top. rewrite Ht.
    destruct (m_kind this); reflexivity.
  - intros Hn Hb. unfold leq, is_bottom. rewrite Hb.
    rewrite bool_decide_eq_false_2 by assumption. reflexivity.
  - intros Ht Hn. unfold leq, is_bottom, is_top. rewrite Ht.
    destruct (m_kind other); simpl; congruence.
  - intros Hv Hv'. unfold leq, is_bottom, is_top. rewrite Hv, Hv'.
    reflexivity.
Qed.

End Order.

(** ** The case analysis of the in-place operations *)

Section CaseTables.
Context {V : Type} `{!AbstractValue.t V}.
Implicit Types this other : t V.

(** C3: [join_with] and [widen_with] leave the receiver unchanged when it is
    Top or the argument is Bottom; otherwise make it Top when the argument is
    Top; otherwise, on a Bottom receiver, copy the argument's kind and value;
    otherwise run the value-level operation and store the kind it returns.
    Hence [join_with(bottom())] changes nothing and [join_with(top())] leaves
    a Top element. *)
Theorem join_like_case_table this other :
  (m_kind this = Kind.Top ∨ m_kind other = Kind.Bottom →
     join_with this other = this ∧ widen_with this other = this) ∧
  (m_kind this ≠ Kind.Top → m_kind other = Kind.Top →
     let top := {| m_kind := Kind.Top;
                   m_value := AbstractValue.clear (m_value this) |} in
     join_with this other = top ∧ widen_with this other = top) ∧
  (m_kind this = Kind.Bottom → m_kind other = Kind.Value →
     let copy := {| m_kind := m_kind other; m_value := m_value other |} in
     join_with this other = copy ∧ widen_with this other = copy) ∧
  (m_kind this = Kind.Value → m_kind other = Kind.Value →
     let joined := AbstractValue.join_with (m_value this) (m_value other) in
     let widened := AbstractValue.widen_with (m_value this) (m_value other) in
     join_with this other = {| m_kind := joined.1; m_value := joined.2 |} ∧
     widen_with this other = {| m_kind := widened.1; m_value := widened.2 |}) ∧
  join_with this Derived.bottom = this ∧
  m_kind (join_with this Derived.top) = Kind.Top.
Proof.
  repeat apply conj.
  - intros [Ht | Hb]; unfold_methods; by_kinds this other.
  - intros Hn Ht; unfold_methods; by_kinds this other.
  - intros Hb Hv; unfold_methods; by_kinds this other.
  - intros Hv Hv'; unfold_methods; by_kinds this other.
    split; [destruct (AbstractValue.join_with _ _)
           | destruct (AbstractValue.widen_with _ _)]; reflexivity.
  - unfold_methods. destruct this as [[] ?]; reflexivity.
  - unfold_methods. destruct this as [[] ?]; reflexivity.
Qed.

(** C4: [meet_with] and [narrow_with] are the exact dual: the receiver is
    unchanged when it is Bottom or the argument is Top; otherwise it becomes
    Bottom when the argument is Bottom; otherwise, on a Top receiver, the
    argument's kind and value are copied; otherwise the value-level operation
    runs and the kind it returns is stored. *)
Theorem meet_like_case_table this other :
  (m_kind this = Kind.Bottom ∨ m_kind other = Kind.Top →
     meet_with this other = this ∧ narrow_with this other = this) ∧
  (m_kind this ≠ Kind.Bottom → m_kind other = Kind.Bottom →
     let bottom := {| m_kind := Kind.Bottom;
                      m_value := AbstractValue.clear (m_value this) |} in
     meet_with this other = bottom ∧ narrow_with this other = bottom) ∧
  (m_kind this = Kind.Top → m_kind other = Kind.Value →
     let copy := {| m_kind := m_kind other; m_value := m_value other |} in
     meet_with this other = copy ∧ narrow_with this other = copy) ∧
  (m_kind this = Kind.Value → m_kind other = Kind.Value →
     let met := AbstractValue.meet_with (m_value this) (m_value other) in
     let narrowed := AbstractValue.narrow_with (m_value this) (m_value other) in
     meet_with this other = {| m_kind := met.1; m_value := met.2 |} ∧
     narrow_with this other = {| m_kind := narrowed.1; m_value := narrowed.2 |}).
Proof.
  repeat apply conj.
  - intros [Hb | Ht]; unfold_methods; by_kinds this other.
  - intros Hn Hb; unfold_methods; by_kinds this other.
  - intros Ht Hv; unfold_methods; by_kinds this other.
  - intros Hv Hv'; unfold_methods; by_kinds this other.
    split; [destruct (AbstractValue.meet_with _ _)
           | destruct (AbstractValue.narrow_with _ _)]; reflexivity.
Qed.

(** C7: [normalize()] stores [m_value.kind()] in [m_kind]; when that kind is
    Bottom or Top the value is cleared, and when it is Value the value is
    left as it was. *)
Theorem normalize_spec this :
  m_kind (normalize this) = AbstractValue.kind (m_value this) ∧
  (AbstractValue.kind (m_value this) = Kind.Bottom ∨
   AbstractValue.kind (m_value this) = Kind.Top →
     m_value (normalize this) = AbstractValue.clear (m_value this)) ∧
  (AbstractValue.kind (m_value this) = Kind.Value →
     m_value (normalize this) = m_value this).
Proof.
  unfold normalize.
  destruct (AbstractValue.kind (m_value this)) eqn:Hk; simpl;
    repeat apply conj; try reflexivity; intros; intuition discriminate.
Qed.

(** C8: the constructor from a kind fails its assertion on [Kind::Value];
    on Bottom or Top it returns, the element has that kind, and its value is
    the default-constructed one, which holds no resources. *)
Theorem ctor_kind_spec (k : Kind.t) :
  ctor_kind Kind.Value = AssertionFailed (A := t V) ∧
  (k = Kind.Bottom ∨ k = Kind.Top →
     ∃ d : t V, ctor_kind k = Returned d ∧ kind d = k ∧
       m_value d = AbstractValue.ctor ∧ AbstractValue.cleared (m_value d)).
Proof.
  split; [reflexivity |].
  intros [-> | ->]; eexists; (split; [reflexivity |]);
    repeat split; constructor.
Qed.

End CaseTables.

(** ** Extremal elements and the resources of their value *)

Section Coalescing.
Context {V : Type} `{!AbstractValue.t V}.
Implicit Types this other : t V.

Lemma ctor_coalesced : coalesced (ctor (V:=V)).
Proof. intros _. constructor. Qed.

Lemma ctor_kind_coalesced (k : Kind.t) (d : t V) :
  ctor_kind k = Returned d → coalesced d.
Proof.
  unfold ctor_kind. case_bool_decide; [| discriminate].
  intros [= <-] _. constructor.
Qed.

Lemma set_to_bottom_coalesced this : coalesced (set_to_bottom this).
Proof. intros _. constructor. Qed.

Lemma set_to_top_coalesced this : coalesced (set_to_top this).
Proof. intros _. constructor. Qed.

Lemma normalize_coalesced this : coalesced (normalize this).
Proof.
  unfold normalize, coalesced.
  destruct (AbstractValue.kind (m_value this)); simpl;
    first [congruence | constructor].
Qed.

(** Off the path that runs a value-level operation, the join-like and
    meet-like operations keep extremal elements free of resources. *)
Lemma join_like_coalesced this other (operation : t V → t V) :
  coalesced this →
  ¬ (m_kind this = Kind.Value ∧ m_kind other = Kind.Value) →
  coalesced (join_like_operation_with other operation this).
Proof.
  unfold_methods. unfold coalesced.
  by_kinds this other; intros; first [congruence | constructor | auto].
Qed.

Lemma meet_like_coalesced this other (operation : t V → t V) :
  coalesced this →
  ¬ (m_kind this = Kind.Value ∧ m_kind other = Kind.Value) →
  coalesced (meet_like_operation_with other operation this).
Proof.
  unfold_methods. unfold coalesced.
  by_kinds this other; intros; first [congruence | constructor | auto].
Qed.

(** On elements whose extremal kinds carry no resources, [equals] is the
    symmetric part of [leq]. *)
Lemma equals_leq_coalesced `{!AbstractValue.Lawful V} this other :
  coalesced this → coalesced other →
  equals this other = leq this other && leq other this.
Proof.
  unfold coalesced, equals, leq, is_bottom, is_top.
  destruct this as [[] v], other as [[] w]; simpl; intros Hv Hw;
    try reflexivity;
    try (apply AbstractValue.equals_cleared; auto; congruence).
  apply AbstractValue.equals_leq.
Qed.

End Coalescing.

(** ** Calls through references *)

Section References.
Context {D : Type}.
Implicit Types (h : gmap AbstractDomain.loc D) (this other : AbstractDomain.loc).

Lemma call_with_spec (method : D → D → D) h this other a b :
  h !! this = Some a → h !! other = Some b →
  AbstractDomain.call_with method this other h
  = Some (<[this := method a b]> h).
Proof.
  intros Ha Hb. unfold AbstractDomain.call_with.
  rewrite Ha, Hb. reflexivity.
Qed.

Lemma copy_then_spec (method : D → D → D) h this other a b :
  h !! this = Some a → h !! other = Some b →
  AbstractDomain.copy_then method this other h = Some (method a b, h).
Proof.
  intros Ha Hb. unfold AbstractDomain.copy_then. rewrite Ha. simpl.
  set (tmp := fresh (dom h)).
  assert (Hfresh : h !! tmp = None).
  { apply not_elem_of_dom. apply is_fresh. }
  assert (Hother : tmp ≠ other) by congruence.
  rewrite (call_with_spec method _ tmp other a b).
  - simpl. rewrite lookup_insert_eq. simpl.
    rewrite insert_insert_eq, delete_insert_eq.
    rewrite delete_id by assumption. reflexivity.
  - apply lookup_insert_eq.
  - rewrite lookup_insert_ne by assumption. assumption.
Qed.

(** C5: each of [join], [widening], [meet] and [narrowing] returns what the
    in-place operation makes of a copy of the receiver, and leaves the heap,
    hence the receiver and the argument, as it was. *)
Theorem functional_layer_copy_then_mutate `{!AbstractDomain.t D}
    h this other a b :
  h !! this = Some a → h !! other = Some b →
  AbstractDomain.join this other h
    = Some (AbstractDomain.join_with a b, h) ∧
  AbstractDomain.widening this other h
    = Some (AbstractDomain.widen_with a b, h) ∧
  AbstractDomain.meet this other h
    = Some (AbstractDomain.meet_with a b, h) ∧
  AbstractDomain.narrowing this other h
    = Some (AbstractDomain.narrow_with a b, h).
Proof.
  intros Ha Hb. repeat apply conj; apply copy_then_spec; assumption.
Qed.

End References.

Section Frame.
Context {V : Type} `{!AbstractValue.t V}.
Implicit Types (h : gmap AbstractDomain.loc (t V)).
Implicit Types (this other : AbstractDomain.loc).

(** When the receiver is its own argument, the call still writes only the
    receiver, and an extremal receiver is left as it was: the early returns
    fire before anything is written. *)
Lemma call_with_aliased (method : t V → t V → t V) h this a :
  h !! this = Some a →
  AbstractDomain.call_with method this this h = Some (<[this := method a a]> h).
Proof. intros Ha. by apply call_with_spec. Qed.

Lemma in_place_self_extremal (a : t V) :
  m_kind a ≠ Kind.Value →
  join_with a a = a ∧ widen_with a a = a ∧
  meet_with a a = a ∧ narrow_with a a = a.
Proof.
  intros Hk. unfold_methods. destruct a as [[] ?]; simpl in *;
    repeat apply conj; congruence.
Qed.

End Frame.

(** ** The scaffolding over the client value *)

Section Client.
Import MyAbstractValue.

#[local] Abbreviation Value l := (of_list Kind.Value l).

Lemma cleared_empty (m_table : gset nat) :
  AbstractValue.cleared m_table ↔ m_table = ∅.
Proof.
  split; [intros []; reflexivity |].
  intros ->. exact (AbstractValue.cleared_ctor (V := gset nat)).
Qed.

(** The client value obeys the laws the scaffolding relies on. *)
#[local] Instance value_lawful : AbstractValue.Lawful (gset nat).
Proof.
  split.
  - intros v w; simpl.
    apply eq_true_iff_eq.
    rewrite andb_true_iff, !bool_decide_eq_true.
    split; [intros ->; split; reflexivity |].
    intros [Hvw Hwv]. apply (anti_symm (⊆)); assumption.
  - intros v w Hv Hw. apply cleared_empty in Hv, Hw. subst. reflexivity.
Qed.

(** C1 (violated by the code): joining the Value elements {v1, v2} and {v3}
    makes the value-level [join_with] return Top; the scaffolding stores that
    kind and keeps the three-element table, so the element is Top and its
    value is not cleared.  [widen_with] does the same. *)
Theorem value_join_top_keeps_table :
  let a := Value [1; 2] in
  let b := Value [3] in
  coalesced a ∧ coalesced b ∧
  m_kind (join_with a b) = Kind.Top ∧
  m_value (join_with a b) = list_to_set [1; 2; 3] ∧
  ¬ AbstractValue.cleared (m_value (join_with a b)) ∧
  m_kind (widen_with a b) = Kind.Top ∧
  ¬ AbstractValue.cleared (m_value (widen_with a b)).
Proof.
  assert (Hfull : ¬ AbstractValue.cleared (list_to_set [1; 2; 3] : gset nat)).
  { rewrite cleared_empty. set_solver. }
  assert (Hjoin : m_value (join_with (Value [1; 2]) (Value [3]))
                  = list_to_set [1; 2; 3]).
  { unfold_methods. simpl. set_solver. }
  assert (Hwiden : m_value (widen_with (Value [1; 2]) (Value [3]))
                   = list_to_set [1; 2; 3]).
  { unfold_methods. simpl. set_solver. }
  cbv zeta. repeat apply conj.
  - intros Hk. exfalso. apply Hk. reflexivity.
  - intros Hk. exfalso. apply Hk. reflexivity.
  - reflexivity.
  - exact Hjoin.
  - rewrite Hjoin. exact Hfull.
  - reflexivity.
  - rewrite Hwiden. exact Hfull.
Qed.

(** C2 (violated by the code): the Top element that the join above leaves
    and [top()] are below each other, yet [equals] tells them apart, because
    it compares the value that was not cleared. *)
Theorem equals_separates_two_tops :
  let a := join_with (Value [1; 2]) (Value [3]) in
  let b := Derived.top in
  m_kind a = Kind.Top ∧ m_kind b = Kind.Top ∧
  leq a b = true ∧ leq b a = true ∧ equals a b = false.
Proof. repeat apply conj; reflexivity. Qed.

(** *** The general theorems at concrete elements *)

Lemma leq_rules_witness :
  let bot := of_list Kind.Bottom [] in
  let top := of_list Kind.Top [] in
  let x := Value [1] in
  let y := Value [1; 2] in
  leq bot x = true ∧ leq x top = true ∧
  leq x bot = false ∧ leq top y = false ∧
  leq x y = AbstractValue.leq (m_value x) (m_value y).
Proof.
  intros bot top x y.
  pose proof (leq_rules x bot x) as (_ & _ & Hbot & _).
  pose proof (leq_rules x x top) as (_ & _ & _ & Htop & _).
  pose proof (leq_rules x x bot) as (_ & _ & _ & _ & Hnbot & _).
  pose proof (leq_rules x top y) as (_ & _ & _ & _ & _ & Hntop & _).
  pose proof (leq_rules x x y) as (_ & _ & _ & _ & _ & _ & Hval).
  repeat apply conj.
  - apply Hbot. reflexivity.
  - apply Htop. reflexivity.
  - apply Hnbot; [discriminate | reflexivity].
  - apply Hntop; [reflexivity | discriminate].
  - apply Hval; reflexivity.
Defined.

Lemma join_like_case_table_witness :
  let bot := of_list Kind.Bottom [] in
  let top := of_list Kind.Top [] in
  let x := Value [1; 2] in
  let y := Value [3] in
  join_with top y = top ∧
  join_with x top = of_list Kind.Top [] ∧
  join_with bot y = y ∧
  m_kind (join_with x y) = Kind.Top ∧
  widen_with x bot = x.
Proof.
  intros bot top x y.
  pose proof (join_like_case_table top y) as (Hsame & _).
  pose proof (join_like_case_table x top) as (_ & Htop & _).
  pose proof (join_like_case_table bot y) as (_ & _ & Hcopy & _).
  pose proof (join_like_case_table x y) as (_ & _ & _ & Hvalue & _).
  pose proof (join_like_case_table x bot) as (Hsame' & _).
  repeat apply conj.
  - apply Hsame. left. reflexivity.
  - apply Htop; [discriminate | reflexivity].
  - apply Hcopy; reflexivity.
  - destruct Hvalue as [-> _]; reflexivity.
  - apply Hsame'. right. reflexivity.
Defined.

Lemma meet_like_case_table_witness :
  let bot := of_list Kind.Bottom [] in
  let top := of_list Kind.Top [] in
  let x := Value [1; 2] in
  let y := Value [2] in
  meet_with bot y = bot ∧
  meet_with x bot = of_list Kind.Bottom [] ∧
  meet_with top y = y ∧
  m_kind (meet_with x y) = Kind.Value ∧
  narrow_with x top = x.
Proof.
  intros bot top x y.
  pose proof (meet_like_case_table bot y) as (Hsame & _).
  pose proof (meet_like_case_table x bot) as (_ & Hbot & _).
  pose proof (meet_like_case_table top y) as (_ & _ & Hcopy & _).
  pose proof (meet_like_case_table x y) as (_ & _ & _ & Hvalue).
  pose proof (meet_like_case_table x top) as (Hsame' & _).
  repeat apply conj.
  - apply Hsame. left. reflexivity.
  - apply Hbot; [discriminate | reflexivity].
  - apply Hcopy; reflexivity.
  - destruct Hvalue as [-> _]; reflexivity.
  - apply Hsame'. right. reflexivity.
Defined.

Lemma normalize_spec_witness :
  let full := Value [1; 2; 3] in
  let x := Value [1] in
  m_kind (normalize full) = Kind.Top ∧
  m_value (normalize full) = ∅ ∧
  m_value (normalize x) = m_value x.
Proof.
  intros full x.
  pose proof (normalize_spec full) as (Hkind & Hclear & _).
  pose proof (normalize_spec x) as (_ & _ & Hkeep).
  repeat apply conj.
  - rewrite Hkind. reflexivity.
  - rewrite Hclear; [reflexivity | right; reflexivity].
  - apply Hkeep. reflexivity.
Defined.

Lemma ctor_kind_spec_witness :
  ∃ d : t (gset nat), ctor_kind Kind.Top = Returned d ∧
    kind d = Kind.Top ∧ m_value d = AbstractValue.ctor ∧
    AbstractValue.cleared (m_value d).
Proof.
  apply (ctor_kind_spec (V := gset nat) Kind.Top). right. reflexivity.
Defined.

Lemma functional_layer_copy_then_mutate_witness :
  let a := Value [1; 2] in
  let b := Value [3] in
  let h : gmap AbstractDomain.loc (t (gset nat)) :=
    <[1%positive := a]> (<[2%positive := b]> ∅) in
  AbstractDomain.join 1%positive 2%positive h
    = Some (AbstractDomain.join_with a b, h) ∧
  AbstractDomain.widening 1%positive 2%positive h
    = Some (AbstractDomain.widen_with a b, h) ∧
  AbstractDomain.meet 1%positive 2%positive h
    = Some (AbstractDomain.meet_with a b, h) ∧
  AbstractDomain.narrowing 1%positive 2%positive h
    = Some (AbstractDomain.narrow_with a b, h).
Proof.
  intros a b h.
  apply (functional_layer_copy_then_mutate h 1%positive 2%positive a b).
  - apply lookup_insert_eq.
  - unfold h. rewrite lookup_insert_ne by discriminate. apply lookup_insert_eq.
Defined.

(** The receiver may be the argument: [a.join(a)] works on a copy and still
    leaves [a] alone. *)
Lemma join_aliased_leaves_receiver :
  let a := Value [1; 2] in
  let h : gmap AbstractDomain.loc (t (gset nat)) := <[1%positive := a]> ∅ in
  AbstractDomain.join 1%positive 1%positive h
    = Some (AbstractDomain.join_with a a, h).
Proof.
  intros a h.
  assert (Ha : h !! 1%positive = Some a) by apply lookup_insert_eq.
  exact (copy_then_spec _ h _ _ a a Ha Ha).
Qed.

End Client.

(** * Further properties of the scaffolding *)

Section OrderLaws.
Context {V : Type} `{!AbstractValue.t V}.
Implicit Types a b c : t V.

(** Two elements below each other have the same kind, whatever the value
    does. *)
Theorem leq_both_ways_same_kind a b :
  leq a b = true → leq b a = true → m_kind a = m_kind b.
Proof. unfold_methods. by_kinds a b. Qed.

(** [leq] is reflexive wherever the value-level [leq] is. *)
Theorem leq_reflexive a :
  (m_kind a = Kind.Value →
     AbstractValue.leq (m_value a) (m_value a) = true) →
  leq a a = true.
Proof. unfold_methods. destruct a as [[] v]; simpl; auto. Qed.

(** [leq] is transitive wherever the value-level [leq] is: Bottom and Top
    are added below and above without breaking the order. *)
Theorem leq_transitive a b c :
  (AbstractValue.leq (m_value a) (m_value b) = true →
   AbstractValue.leq (m_value b) (m_value c) = true →
   AbstractValue.leq (m_value a) (m_value c) = true) →
  leq a b = true → leq b c = true → leq a c = true.
Proof.
  unfold_methods.
  destruct a as [[] ?], b as [[] ?], c as [[] ?]; simpl;
    auto; discriminate.
Qed.

(** Equal elements are below each other, provided equal values are. *)
Theorem equals_implies_leq a b :
  (AbstractValue.equals (m_value a) (m_value b) = true →
   AbstractValue.leq (m_value a) (m_value b) = true ∧
   AbstractValue.leq (m_value b) (m_value a) = true) →
  equals a b = true → leq a b = true ∧ leq b a = true.
Proof.
  unfold_methods.
  destruct a as [[] ?], b as [[] ?]; simpl; auto; discriminate.
Qed.

(** [equals] is an equivalence on the elements whenever the value-level
    [equals] is one on the values. *)
Theorem equals_equivalence :
  (∀ v : V, AbstractValue.equals v v = true) →
  (∀ v w : V, AbstractValue.equals v w = AbstractValue.equals w v) →
  (∀ u v w : V, AbstractValue.equals u v = true →
     AbstractValue.equals v w = true → AbstractValue.equals u w = true) →
  (∀ a, equals a a = true) ∧
  (∀ a b, equals a b = equals b a) ∧
  (∀ a b c, equals a b = true → equals b c = true → equals a c = true).
Proof.
  intros Hrefl Hsym Htrans. unfold equals. repeat apply conj.
  - intros a. rewrite bool_decide_eq_true_2 by reflexivity. apply Hrefl.
  - intros a b. rewrite (Hsym (m_value a)). f_equal.
    apply bool_decide_ext. split; congruence.
  - intros a b c [Hab Hvab]%andb_true_iff [Hbc Hvbc]%andb_true_iff.
    apply bool_decide_eq_true in Hab, Hbc.
    apply andb_true_iff. split; [| by eapply Htrans].
    apply bool_decide_eq_true. congruence.
Qed.

End OrderLaws.

Section Bounds.
Context {V : Type} `{!AbstractValue.t V}.
Implicit Types a b : t V.

Lemma join_like_upper_bound (op : V → V → Kind.t * V) a b :
  (m_kind a = Kind.Value → AbstractValue.leq (m_value a) (m_value a) = true) →
  (m_kind b = Kind.Value → AbstractValue.leq (m_value b) (m_value b) = true) →
  (m_kind a = Kind.Value → m_kind b = Kind.Value →
     ValueLaws.upper_bound op (m_value a) (m_value b)) →
  let r := join_like_operation_with b (value_operation op b) a in
  leq a r = true ∧ leq b r = true.
Proof.
  unfold ValueLaws.upper_bound. unfold_methods.
  destruct a as [[] v], b as [[] w]; simpl; intros Ha Hb Hop; auto.
  destruct (Hop eq_refl eq_refl) as [Hnb Hval].
  destruct (op v w) as [[] u]; simpl in *; auto; congruence.
Qed.

Lemma meet_like_lower_bound (op : V → V → Kind.t * V) a b :
  (m_kind a = Kind.Value → AbstractValue.leq (m_value a) (m_value a) = true) →
  (m_kind b = Kind.Value → AbstractValue.leq (m_value b) (m_value b) = true) →
  (m_kind a = Kind.Value → m_kind b = Kind.Value →
     ValueLaws.lower_bound op (m_value a) (m_value b)) →
  let r := meet_like_operation_with b (value_operation op b) a in
  leq r a = true ∧ leq r b = true.
Proof.
  unfold ValueLaws.lower_bound. unfold_methods.
  destruct a as [[] v], b as [[] w]; simpl; intros Ha Hb Hop; auto.
  destruct (Hop eq_refl eq_refl) as [Hnt Hval].
  destruct (op v w) as [[] u]; simpl in *; auto; congruence.
Qed.

(** [join_with] and [widen_with] leave the receiver above both what it was
    and the argument, provided the value-level [leq] is reflexive on the two
    values and the value-level operation yields an upper bound of them. *)
Theorem join_widen_upper_bound a b :
  (m_kind a = Kind.Value → AbstractValue.leq (m_value a) (m_value a) = true) →
  (m_kind b = Kind.Value → AbstractValue.leq (m_value b) (m_value b) = true) →
  (m_kind a = Kind.Value → m_kind b = Kind.Value →
     ValueLaws.upper_bound AbstractValue.join_with (m_value a) (m_value b) ∧
     ValueLaws.upper_bound AbstractValue.widen_with (m_value a) (m_value b)) →
  (leq a (join_with a b) = true ∧ leq b (join_with a b) = true) ∧
  (leq a (widen_with a b) = true ∧ leq b (widen_with a b) = true).
Proof.
  intros Ha Hb Hop. split; apply join_like_upper_bound; auto;
    intros Hka Hkb; apply Hop; assumption.
Qed.

(** [meet_with] and [narrow_with] leave the receiver below both what it was
    and the argument, provided the value-level [leq] is reflexive on the two
    values and the value-level operation yields a lower bound of them. *)
Theorem meet_narrow_lower_bound a b :
  (m_kind a = Kind.Value → AbstractValue.leq (m_value a) (m_value a) = true) →
  (m_kind b = Kind.Value → AbstractValue.leq (m_value b) (m_value b) = true) →
  (m_kind a = Kind.Value → m_kind b = Kind.Value →
     ValueLaws.lower_bound AbstractValue.meet_with (m_value a) (m_value b) ∧
     ValueLaws.lower_bound AbstractValue.narrow_with (m_value a) (m_value b)) →
  (leq (meet_with a b) a = true ∧ leq (meet_with a b) b = true) ∧
  (leq (narrow_with a b) a = true ∧ leq (narrow_with a b) b = true).
Proof.
  intros Ha Hb Hop. split; apply meet_like_lower_bound; auto;
    intros Hka Hkb; apply Hop; assumption.
Qed.

End Bounds.

Section Invariant.
Context {V : Type} `{!AbstractValue.t V}.
Implicit Types a b : t V.

(** Both constructors, [set_to_bottom], [set_to_top] and [normalize] (also
    right after [set_to_value]) leave an element whose extremal kinds hold no
    resources. *)
Theorem establishes_coalesced :
  coalesced (ctor (V := V)) ∧
  (∀ k d, ctor_kind (V := V) k = Returned d → coalesced d) ∧
  (∀ a, coalesced (set_to_bottom a) ∧ coalesced (set_to_top a) ∧
        coalesced (normalize a)) ∧
  (∀ a v, coalesced (normalize (set_to_value v a))).
Proof.
  repeat apply conj.
  - apply ctor_coalesced.
  - apply ctor_kind_coalesced.
  - intros a. repeat apply conj;
      [apply set_to_bottom_coalesced | apply set_to_top_coalesced
      | apply normalize_coalesced].
  - intros a v. apply normalize_coalesced.
Qed.

Lemma value_operation_coalesced (op : V → V → Kind.t * V) a b :
  ValueLaws.releases op (m_value a) (m_value b) →
  coalesced (value_operation op b a).
Proof.
  unfold ValueLaws.releases, value_operation, coalesced.
  destruct (op (m_value a) (m_value b)); simpl. auto.
Qed.

Lemma join_like_keeps_coalesced (op : V → V → Kind.t * V) a b :
  coalesced a →
  (m_kind a = Kind.Value → m_kind b = Kind.Value →
     ValueLaws.releases op (m_value a) (m_value b)) →
  coalesced (join_like_operation_with b (value_operation op b) a).
Proof.
  intros Ha Hop.
  destruct (decide (m_kind a = Kind.Value ∧ m_kind b = Kind.Value))
    as [[Hka Hkb] | Hn].
  - unfold join_like_operation_with, is_top, is_bottom.
    rewrite Hka, Hkb. simpl. apply value_operation_coalesced. by apply Hop.
  - by apply join_like_coalesced.
Qed.

Lemma meet_like_keeps_coalesced (op : V → V → Kind.t * V) a b :
  coalesced a →
  (m_kind a = Kind.Value → m_kind b = Kind.Value →
     ValueLaws.releases op (m_value a) (m_value b)) →
  coalesced (meet_like_operation_with b (value_operation op b) a).
Proof.
  intros Ha Hop.
  destruct (decide (m_kind a = Kind.Value ∧ m_kind b = Kind.Value))
    as [[Hka Hkb] | Hn].
  - unfold meet_like_operation_with, is_top, is_bottom.
    rewrite Hka, Hkb. simpl. apply value_operation_coalesced. by apply Hop.
  - by apply meet_like_coalesced.
Qed.

(** An in-place operation keeps the extremal kinds of its receiver free of
    resources: on every path but the one that runs the value-level operation
    this needs nothing more, and on that path (both elements Value) it needs
    the value-level operation to release the value whenever it returns Top
    or Bottom.  The argument need not satisfy anything. *)
Theorem in_place_keeps_coalesced a b :
  coalesced a →
  ((m_kind a = Kind.Value → m_kind b = Kind.Value →
      ValueLaws.releases AbstractValue.join_with (m_value a) (m_value b)) →
     coalesced (join_with a b)) ∧
  ((m_kind a = Kind.Value → m_kind b = Kind.Value →
      ValueLaws.releases AbstractValue.widen_with (m_value a) (m_value b)) →
     coalesced (widen_with a b)) ∧
  ((m_kind a = Kind.Value → m_kind b = Kind.Value →
      ValueLaws.releases AbstractValue.meet_with (m_value a) (m_value b)) →
     coalesced (meet_with a b)) ∧
  ((m_kind a = Kind.Value → m_kind b = Kind.Value →
      ValueLaws.releases AbstractValue.narrow_with (m_value a) (m_value b)) →
     coalesced (narrow_with a b)).
Proof.
  intros Ha. repeat apply conj; intros Hop;
    first [by apply join_like_keeps_coalesced
          | by apply meet_like_keeps_coalesced].
Qed.

(** [normalize] reads the kind back from the value alone: after it, an
    element that was set to Top and one that was set to Bottom are the same,
    of the kind that the cleared value reports. *)
Theorem normalize_forgets_extremum a :
  normalize (set_to_top a) = normalize (set_to_bottom a) ∧
  m_kind (normalize (set_to_top a))
  = AbstractValue.kind (AbstractValue.clear (m_value a)).
Proof.
  split; [reflexivity |].
  unfold normalize, set_to_top; simpl.
  destruct (AbstractValue.kind _); reflexivity.
Qed.

End Invariant.

Section SelfCall.
Context {V : Type} `{!AbstractValue.t V}.
Implicit Types (h : gmap AbstractDomain.loc (t V)).

(** Called with the receiver as its own argument, each in-place operation
    leaves an extremal receiver, and with it the whole heap, as it was. *)
Theorem in_place_self_call_extremal h (this : AbstractDomain.loc) (a : t V) :
  h !! this = Some a → m_kind a ≠ Kind.Value →
  AbstractDomain.call_with join_with this this h = Some h ∧
  AbstractDomain.call_with widen_with this this h = Some h ∧
  AbstractDomain.call_with meet_with this this h = Some h ∧
  AbstractDomain.call_with narrow_with this this h = Some h.
Proof.
  intros Ha Hk.
  destruct (in_place_self_extremal a Hk) as (Hj & Hw & Hm & Hn).
  repeat apply conj; rewrite (call_with_aliased _ h this a Ha);
    rewrite ?Hj, ?Hw, ?Hm, ?Hn; by rewrite insert_id.
Qed.

End SelfCall.

(** * The liveness client *)

Section Registers.

(** Distinct registers have distinct names, so a set of names stands for a
    set of registers. *)
Theorem get_register_injective (i j : N) :
  IRFixpointIterator.get_register i = IRFixpointIterator.get_register j
  ↔ i = j.
Proof.
  split; [| by intros ->].
  unfold IRFixpointIterator.get_register. simpl.
  intros [= Hij]. by apply (inj pretty).
Qed.

End Registers.

Section Liveness.
Import IRFixpointIterator.
Context {LivenessDomain : Type}.
Context (add remove : string → LivenessDomain → LivenessDomain).
Context (contains : string → LivenessDomain → bool).
Implicit Types (s : LivenessDomain) (r : string).
Implicit Types (insn : IRInstruction.t) (block : list MethodItemEntry.t).

Lemma analyze_node_nil s : analyze_node add remove [] s = s.
Proof. reflexivity. Qed.

Lemma analyze_node_cons (it : MethodItemEntry.t) block s :
  analyze_node add remove (it :: block) s =
  match it with
  | MethodItemEntry.MFLOW_OPCODE insn =>
      analyze_instruction add remove insn (analyze_node add remove block s)
  | _ => analyze_node add remove block s
  end.
Proof.
  unfold analyze_node. rewrite reverse_cons, foldl_app. reflexivity.
Qed.

(** A block is analysed from its last entry to its first: the state after a
    concatenation is that of the front part run on the result of the back
    part, and an empty block changes nothing. *)
Theorem analyze_node_app block1 block2 s :
  analyze_node add remove (block1 ++ block2) s
  = analyze_node add remove block1 (analyze_node add remove block2 s) ∧
  analyze_node add remove [] s = s.
Proof.
  split; [| reflexivity].
  unfold analyze_node. rewrite reverse_app, foldl_app. reflexivity.
Qed.

(** Only the [MFLOW_OPCODE] entries of a block count: dropping every other
    entry leaves the analysis of the block unchanged. *)
Theorem analyze_node_opcodes_only block s :
  analyze_node add remove (filter MethodItemEntry.is_opcode block) s
  = analyze_node add remove block s.
Proof.
  induction block as [| it block IH]; [reflexivity |].
  destruct it; simpl;
    rewrite ?filter_cons_True, ?filter_cons_False by (simpl; auto);
    rewrite !analyze_node_cons, ?IH; congruence.
Qed.

Hypothesis contains_add : ∀ x r s,
  contains r (add x s) = bool_decide (x = r) || contains r s.
Hypothesis contains_remove : ∀ x r s,
  contains r (remove x s) = bool_decide (x ≠ r) && contains r s.

Lemma contains_foldl_add {A : Type} (f : A → string) (l : list A) s r :
  contains r (foldl (λ st x, add (f x) st) s l) = true
  ↔ r ∈ f <$> l ∨ contains r s = true.
Proof.
  revert s. induction l as [| x l IH]; intros s; simpl.
  - rewrite elem_of_nil. tauto.
  - rewrite IH, contains_add, elem_of_cons, orb_true_iff, bool_decide_eq_true.
    split; intros; destruct_or?; auto.
Qed.

(** The standard definition of liveness: a register is live before an
    instruction exactly when the instruction reads it, or it is live after
    the instruction and the instruction does not write it.  A register both
    written and read is live. *)
Theorem analyze_instruction_liveness insn s r :
  contains r (analyze_instruction add remove insn s) = true
  ↔ r ∈ uses insn ∨ (contains r s = true ∧ ¬ defines insn r).
Proof.
  assert (Hdest :
    contains r (if bool_decide (IRInstruction.dests_size insn ≠ 0)
                then remove (get_register (IRInstruction.dest insn)) s
                else s) = true
    ↔ contains r s = true ∧ ¬ defines insn r).
  { unfold defines. case_bool_decide as Hd.
    - rewrite contains_remove, andb_true_iff, bool_decide_eq_true.
      split; [intros [Hne Hc]; split; [done | intros [_ ->]; done] |].
      intros [Hc Hn]. split; [| done]. intros <-. by apply Hn.
    - split; [| tauto]. intros Hc. split; [done | tauto]. }
  unfold analyze_instruction, uses.
  destruct (IRInstruction.has_range insn).
  - rewrite contains_foldl_add, contains_foldl_add, Hdest, elem_of_app. tauto.
  - rewrite contains_foldl_add, Hdest, app_nil_r. tauto.
Qed.

Lemma analyze_instruction_monotone insn s s' :
  (∀ r, contains r s = true → contains r s' = true) →
  ∀ r, contains r (analyze_instruction add remove insn s) = true →
       contains r (analyze_instruction add remove insn s') = true.
Proof.
  intros Hsub r. rewrite !analyze_instruction_liveness.
  intros [Hu | [Hc Hd]]; auto.
Qed.

(** The transfer function of a block is monotone: more registers live at the
    end of the block give more registers live at its start. *)
Theorem analyze_node_monotone block s s' :
  (∀ r, contains r s = true → contains r s' = true) →
  ∀ r, contains r (analyze_node add remove block s) = true →
       contains r (analyze_node add remove block s') = true.
Proof.
  intros Hsub. induction block as [| it block IH]; [exact Hsub |].
  rewrite !analyze_node_cons. destruct it; try exact IH.
  by apply analyze_instruction_monotone.
Qed.

End Liveness.

(** * The devirtualization pass *)

Section PassConfiguration.
Import MethodDevirtualizationPass.
Context {PassConfig : Type} (get : PassConfig → string → bool → bool).

(** [configure_pass] overwrites all four flags, whatever they held, and
    leaves the call-site metrics alone; under a configuration that sets none
    of the four options the pass staticizes the methods that do not use
    [this] and not those that do. *)
Theorem configure_pass_flags (pc : PassConfig) (this this' : t) :
  (m_call_site_metrics this = m_call_site_metrics this' →
     configure_pass get pc this = configure_pass get pc this') ∧
  m_call_site_metrics (configure_pass get pc this) = m_call_site_metrics this ∧
  ((∀ name dflt, get pc name dflt = dflt) →
     configure_pass get pc this
     = {| m_staticize_vmethods_not_using_this := true;
          m_staticize_dmethods_not_using_this := true;
          m_staticize_vmethods_using_this := false;
          m_staticize_dmethods_using_this := false;
          m_call_site_metrics := m_call_site_metrics this |}).
Proof.
  unfold configure_pass. repeat apply conj.
  - intros ->. reflexivity.
  - reflexivity.
  - intros Hdflt. rewrite !Hdflt. reflexivity.
Qed.

End PassConfiguration.

(** * The further properties at concrete inputs *)

Section ClientLaws.
Import MyAbstractValue.

#[local] Abbreviation Value l := (of_list Kind.Value l).

Lemma my_leq_reflexive (v : gset nat) : AbstractValue.leq v v = true.
Proof. apply bool_decide_eq_true. reflexivity. Qed.

Lemma my_leq_transitive (u v w : gset nat) :
  AbstractValue.leq u v = true → AbstractValue.leq v w = true →
  AbstractValue.leq u w = true.
Proof.
  simpl. rewrite !bool_decide_eq_true. intros Huv Hvw. by transitivity v.
Qed.

Lemma my_kind_not_bottom (m_table : gset nat) :
  m_table_kind m_table ≠ Kind.Bottom.
Proof. unfold m_table_kind. case_bool_decide; discriminate. Qed.

Lemma my_join_upper_bound (v w : gset nat) :
  ValueLaws.upper_bound AbstractValue.join_with v w ∧
  ValueLaws.upper_bound AbstractValue.widen_with v w.
Proof.
  split; (split; [apply my_kind_not_bottom |]); intros _; simpl;
    rewrite !bool_decide_eq_true; set_solver.
Qed.

Lemma my_meet_lower_bound (v w : gset nat) :
  size v ≤ capacity →
  ValueLaws.lower_bound AbstractValue.meet_with v w ∧
  ValueLaws.lower_bound AbstractValue.narrow_with v w.
Proof.
  intros Hv.
  assert (Hk : m_table_kind (v ∩ w) ≠ Kind.Top).
  { unfold m_table_kind. case_bool_decide as Hs; [| discriminate].
    exfalso. assert (size (v ∩ w) ≤ size v); [| lia].
    apply subseteq_size, intersection_subseteq_l. }
  split; (split; [exact Hk |]); intros _; simpl;
    rewrite !bool_decide_eq_true;
    (split; [apply intersection_subseteq_l | apply intersection_subseteq_r]).
Qed.

Lemma my_leq_example :
  AbstractValue.leq (list_to_set [1] : gset nat) (list_to_set [1; 2]) = true.
Proof. vm_compute. reflexivity. Qed.

Lemma my_equals_equivalence :
  (∀ v : gset nat, AbstractValue.equals v v = true) ∧
  (∀ v w : gset nat, AbstractValue.equals v w = AbstractValue.equals w v) ∧
  (∀ u v w : gset nat, AbstractValue.equals u v = true →
     AbstractValue.equals v w = true → AbstractValue.equals u w = true).
Proof.
  simpl. repeat apply conj.
  - intros v. by apply bool_decide_eq_true.
  - intros v w. apply bool_decide_ext. split; congruence.
  - intros u v w. rewrite !bool_decide_eq_true. congruence.
Qed.

Lemma leq_assertion_holds_witness :
  leq_assertion (Value [1]) (Value [1; 2]) = true.
Proof. apply leq_assertion_holds; reflexivity. Defined.

Lemma leq_both_ways_same_kind_witness :
  m_kind (of_list Kind.Top [1; 2; 3]) = m_kind (of_list Kind.Top []).
Proof. apply leq_both_ways_same_kind; reflexivity. Defined.

Lemma leq_reflexive_witness : leq (Value [1; 2]) (Value [1; 2]) = true.
Proof. apply leq_reflexive. intros _. apply my_leq_reflexive. Defined.

Lemma leq_transitive_witness : leq (Value [1]) (of_list Kind.Top []) = true.
Proof.
  apply (leq_transitive (Value [1]) (Value [1; 2]) (of_list Kind.Top [])).
  - apply my_leq_transitive.
  - apply (leq_transitive (Value [1]) (Value [1; 2]) (Value [1; 2])).
    + apply my_leq_transitive.
    + apply my_leq_example.
    + apply leq_reflexive. intros _. apply my_leq_reflexive.
  - reflexivity.
Defined.

Lemma my_equals_leq (v w : gset nat) :
  AbstractValue.equals v w = true →
  AbstractValue.leq v w = true ∧ AbstractValue.leq w v = true.
Proof.
  simpl. rewrite !bool_decide_eq_true. intros ->. split; reflexivity.
Qed.

Lemma my_size_example : size (list_to_set [1; 2] : gset nat) ≤ capacity.
Proof. vm_compute. lia. Qed.

Lemma equals_implies_leq_witness :
  let a := Value [1; 2] in
  leq a a = true ∧ leq a a = true.
Proof.
  intros a. apply equals_implies_leq.
  - apply my_equals_leq.
  - apply (proj1 my_equals_equivalence).
Defined.

Lemma equals_equivalence_witness :
  (∀ a : t (gset nat), equals a a = true) ∧
  (∀ a b : t (gset nat), equals a b = equals b a) ∧
  (∀ a b c : t (gset nat),
     equals a b = true → equals b c = true → equals a c = true).
Proof.
  destruct my_equals_equivalence as (Hrefl & Hsym & Htrans).
  exact (equals_equivalence Hrefl Hsym Htrans).
Defined.

Lemma join_widen_upper_bound_witness :
  let a := Value [1; 2] in
  let b := Value [3] in
  (leq a (join_with a b) = true ∧ leq b (join_with a b) = true) ∧
  (leq a (widen_with a b) = true ∧ leq b (widen_with a b) = true).
Proof.
  intros a b. apply join_widen_upper_bound.
  - intros _. apply my_leq_reflexive.
  - intros _. apply my_leq_reflexive.
  - intros _ _. apply my_join_upper_bound.
Defined.

Lemma meet_narrow_lower_bound_witness :
  let a := Value [1; 2] in
  let b := Value [2] in
  (leq (meet_with a b) a = true ∧ leq (meet_with a b) b = true) ∧
  (leq (narrow_with a b) a = true ∧ leq (narrow_with a b) b = true).
Proof.
  intros a b. apply meet_narrow_lower_bound.
  - intros _. apply my_leq_reflexive.
  - intros _. apply my_leq_reflexive.
  - intros _ _. apply my_meet_lower_bound, my_size_example.
Defined.

Lemma in_place_keeps_coalesced_witness :
  let top := of_list Kind.Top [] in
  @coalesced _ MyReleasingValue.value
    (@join_with _ MyReleasingValue.value top (Value [1])) ∧
  @coalesced _ MyReleasingValue.value
    (@widen_with _ MyReleasingValue.value (Value [1]) (Value [2])).
Proof.
  intros top.
  assert (Hempty : @AbstractValue.cleared _ MyReleasingValue.value ∅)
    by exact (@AbstractValue.cleared_ctor _ MyReleasingValue.value).
  assert (Htop : @coalesced _ MyReleasingValue.value top)
    by (intros _; exact Hempty).
  assert (Ha : @coalesced _ MyReleasingValue.value (Value [1])).
  { intros Hk. exfalso. apply Hk. reflexivity. }
  split.
  - apply (proj1 (@in_place_keeps_coalesced _ MyReleasingValue.value
                    top (Value [1]) Htop)).
    intros Hk. discriminate Hk.
  - apply (proj1 (proj2 (@in_place_keeps_coalesced _ MyReleasingValue.value
                           (Value [1]) (Value [2]) Ha))).
    intros _ _ _. exact Hempty.
Defined.

Lemma in_place_self_call_extremal_witness :
  let a := of_list Kind.Top [] in
  let h : gmap AbstractDomain.loc (t (gset nat)) := <[1%positive := a]> ∅ in
  AbstractDomain.call_with join_with 1%positive 1%positive h = Some h ∧
  AbstractDomain.call_with widen_with 1%positive 1%positive h = Some h ∧
  AbstractDomain.call_with meet_with 1%positive 1%positive h = Some h ∧
  AbstractDomain.call_with narrow_with 1%positive 1%positive h = Some h.
Proof.
  intros a h.
  assert (Ha : h !! 1%positive = Some a) by apply lookup_insert_eq.
  assert (Hk : m_kind a ≠ Kind.Value) by discriminate.
  exact (in_place_self_call_extremal h _ a Ha Hk).
Defined.

End ClientLaws.

Section LivenessAtRegisterSets.
Import IRFixpointIterator.

Lemma register_set_contains_add (x r : string) (s : gset string) :
  RegisterSet.contains r (RegisterSet.add x s)
  = bool_decide (x = r) || RegisterSet.contains r s.
Proof.
  unfold RegisterSet.contains, RegisterSet.add. apply eq_true_iff_eq.
  rewrite orb_true_iff, !bool_decide_eq_true, elem_of_union, elem_of_singleton.
  split; intros [? | ?]; auto.
Qed.

Lemma register_set_contains_remove (x r : string) (s : gset string) :
  RegisterSet.contains r (RegisterSet.remove x s)
  = bool_decide (x ≠ r) && RegisterSet.contains r s.
Proof.
  unfold RegisterSet.contains, RegisterSet.remove. apply eq_true_iff_eq.
  rewrite andb_true_iff, !bool_decide_eq_true, elem_of_difference,
    elem_of_singleton.
  split; intros [? ?]; split; auto.
Qed.

Lemma analyze_instruction_liveness_witness :
  let s : gset string := {["v2"]} in
  RegisterSet.contains "v0"
    (analyze_instruction RegisterSet.add RegisterSet.remove
       add_int_v0_v0_v1 s) = true
  ↔ "v0" ∈ uses add_int_v0_v0_v1 ∨
    (RegisterSet.contains "v0" s = true ∧ ¬ defines add_int_v0_v0_v1 "v0").
Proof.
  intros s.
  exact (analyze_instruction_liveness RegisterSet.add RegisterSet.remove
           RegisterSet.contains register_set_contains_add
           register_set_contains_remove add_int_v0_v0_v1 s "v0").
Defined.

Lemma register_set_below_example (r : string) :
  RegisterSet.contains r {["v2"]} = true →
  RegisterSet.contains r ({["v2"]} ∪ {["v3"]}) = true.
Proof.
  unfold RegisterSet.contains. rewrite !bool_decide_eq_true.
  apply elem_of_union_l.
Qed.

Lemma analyze_node_example :
  RegisterSet.contains "v2"
    (analyze_node RegisterSet.add RegisterSet.remove
       [MethodItemEntry.MFLOW_POSITION 48;
        MethodItemEntry.MFLOW_OPCODE add_int_v0_v0_v1] {["v2"]}) = true ∧
  RegisterSet.contains "v2"
    (analyze_node RegisterSet.add RegisterSet.remove
       [MethodItemEntry.MFLOW_POSITION 48;
        MethodItemEntry.MFLOW_OPCODE add_int_v0_v0_v1] ∅) = false.
Proof. split; vm_compute; reflexivity. Qed.

Lemma analyze_node_monotone_witness :
  let block := [MethodItemEntry.MFLOW_POSITION 48;
                MethodItemEntry.MFLOW_OPCODE add_int_v0_v0_v1] in
  RegisterSet.contains "v2"
    (analyze_node RegisterSet.add RegisterSet.remove block
       ({["v2"]} ∪ {["v3"]})) = true.
Proof.
  intros block.
  exact (analyze_node_monotone RegisterSet.add RegisterSet.remove
           RegisterSet.contains register_set_contains_add
           register_set_contains_remove block {["v2"]} ({["v2"]} ∪ {["v3"]})
           register_set_below_example "v2" (proj1 analyze_node_example)).
Defined.

End LivenessAtRegisterSets.

Section PassAtDefaults.
Import MethodDevirtualizationPass.

Lemma configure_pass_flags_witness :
  let get : unit → string → bool → bool := λ _ _ dflt, dflt in
  let this := {| m_staticize_vmethods_not_using_this := false;
                 m_staticize_dmethods_not_using_this := false;
                 m_staticize_vmethods_using_this := true;
                 m_staticize_dmethods_using_this := true;
                 m_call_site_metrics := Build_CallSiteMetrics 0 0 0 |} in
  configure_pass get () this
  = {| m_staticize_vmethods_not_using_this := true;
       m_staticize_dmethods_not_using_this := true;
       m_staticize_vmethods_using_this := false;
       m_staticize_dmethods_using_this := false;
       m_call_site_metrics := Build_CallSiteMetrics 0 0 0 |}.
Proof.
  intros get this.
  apply (proj2 (proj2 (configure_pass_flags get () this this))).
  intros name dflt. reflexivity.
Defined.

End PassAtDefaults.

(** * The in-place operations through references *)

Section ThroughReferences.
Context {V : Type} `{!AbstractValue.t V}.
Implicit Types (h : gmap AbstractDomain.loc (t V)).
Implicit Types (this other : AbstractDomain.loc) (a b : t V).

Lemma store_m_kind_spec h this a (k : Kind.t) :
  h !! this = Some a →
  ByReference.store_m_kind this k h
  = Some (<[this := {| m_kind := k; m_value := m_value a |}]> h).
Proof. intros Ha. unfold ByReference.store_m_kind. by rewrite Ha. Qed.

Lemma store_m_value_spec h this a (v : V) :
  h !! this = Some a →
  ByReference.store_m_value this v h
  = Some (<[this := {| m_kind := m_kind a; m_value := v |}]> h).
Proof. intros Ha. unfold ByReference.store_m_value. by rewrite Ha. Qed.

Lemma by_reference_set_to_top h this a :
  h !! this = Some a →
  ByReference.set_to_top this h = Some (<[this := set_to_top a]> h).
Proof.
  intros Ha. unfold ByReference.set_to_top.
  rewrite (store_m_kind_spec h this a) by assumption. simpl.
  rewrite lookup_insert_eq. simpl.
  rewrite (store_m_value_spec _ this {| m_kind := Kind.Top; m_value := m_value a |})
    by apply lookup_insert_eq.
  by rewrite insert_insert_eq.
Qed.

Lemma by_reference_set_to_bottom h this a :
  h !! this = Some a →
  ByReference.set_to_bottom this h = Some (<[this := set_to_bottom a]> h).
Proof.
  intros Ha. unfold ByReference.set_to_bottom.
  rewrite (store_m_kind_spec h this a) by assumption. simpl.
  rewrite lookup_insert_eq. simpl.
  rewrite (store_m_value_spec _ this {| m_kind := Kind.Bottom; m_value := m_value a |})
    by apply lookup_insert_eq.
  by rewrite insert_insert_eq.
Qed.

Lemma by_reference_copy h this other a b :
  h !! this = Some a → h !! other = Some b → m_kind a ≠ m_kind b →
  (ByReference.store_m_kind this (m_kind b) h ≫= λ h',
     h' !! other ≫= λ b', ByReference.store_m_value this (m_value b') h')
  = Some (<[this := {| m_kind := m_kind b; m_value := m_value b |}]> h).
Proof.
  intros Ha Hb Hk.
  assert (Hne : this ≠ other) by (intros ->; congruence).
  rewrite (store_m_kind_spec h this a) by assumption. simpl.
  rewrite lookup_insert_ne, Hb by assumption. simpl.
  rewrite (store_m_value_spec _ this {| m_kind := m_kind b; m_value := m_value a |})
    by apply lookup_insert_eq.
  by rewrite insert_insert_eq.
Qed.

Lemma by_reference_value_operation (op : V → V → Kind.t * V) h this other a b :
  h !! this = Some a → h !! other = Some b →
  ByReference.value_operation op this other h
  = Some (<[this := value_operation op b a]> h).
Proof.
  intros Ha Hb. unfold ByReference.value_operation, value_operation.
  rewrite Ha, Hb. simpl. destruct (op (m_value a) (m_value b)) as [k v].
  rewrite (store_m_value_spec h this a) by assumption. simpl.
  rewrite (store_m_kind_spec _ this {| m_kind := m_kind a; m_value := v |})
    by apply lookup_insert_eq.
  by rewrite insert_insert_eq.
Qed.

(** Run on the heap, a join-like operation stores in the receiver what the
    method computes from the two objects, also when they are one object. *)
Lemma by_reference_join_like (op : V → V → Kind.t * V) h this other a b :
  h !! this = Some a → h !! other = Some b →
  ByReference.join_like_operation_with this other
    (ByReference.value_operation op this other) h
  = Some (<[this := join_like_operation_with b (value_operation op b) a]> h).
Proof.
  intros Ha Hb.
  unfold ByReference.join_like_operation_with, join_like_operation_with.
  rewrite Ha, Hb. simpl.
  destruct (is_top a || is_bottom b) eqn:Hearly.
  { by rewrite insert_id. }
  apply orb_false_iff in Hearly as [Hta Hbb].
  destruct (is_top b) eqn:Htb; [by apply by_reference_set_to_top |].
  destruct (is_bottom a) eqn:Hba; [| by apply by_reference_value_operation].
  apply (by_reference_copy h this other a b); try assumption.
  unfold is_bottom in *.
  apply bool_decide_eq_true in Hba. apply bool_decide_eq_false in Hbb.
  congruence.
Qed.

Lemma by_reference_meet_like (op : V → V → Kind.t * V) h this other a b :
  h !! this = Some a → h !! other = Some b →
  ByReference.meet_like_operation_with this other
    (ByReference.value_operation op this other) h
  = Some (<[this := meet_like_operation_with b (value_operation op b) a]> h).
Proof.
  intros Ha Hb.
  unfold ByReference.meet_like_operation_with, meet_like_operation_with.
  rewrite Ha, Hb. simpl.
  destruct (is_bottom a || is_top b) eqn:Hearly.
  { by rewrite insert_id. }
  apply orb_false_iff in Hearly as [Hba Htb].
  destruct (is_bottom b) eqn:Hbb; [by apply by_reference_set_to_bottom |].
  destruct (is_top a) eqn:Hta; [| by apply by_reference_value_operation].
  apply (by_reference_copy h this other a b); try assumption.
  unfold is_top in *.
  apply bool_decide_eq_true in Hta. apply bool_decide_eq_false in Htb.
  congruence.
Qed.

(** C10 (as amended): on two distinct objects, [a.join_with(b)],
    [a.widen_with(b)], [a.meet_with(b)] and [a.narrow_with(b)] return, store
    their result in [a], and leave the kind and the value of [b] as they
    were before the call. *)
Theorem in_place_leaves_distinct_other h this other a b :
  this ≠ other → h !! this = Some a → h !! other = Some b →
  (∃ h', ByReference.join_with this other h = Some h' ∧
         h' !! this = Some (join_with a b) ∧ h' !! other = Some b) ∧
  (∃ h', ByReference.widen_with this other h = Some h' ∧
         h' !! this = Some (widen_with a b) ∧ h' !! other = Some b) ∧
  (∃ h', ByReference.meet_with this other h = Some h' ∧
         h' !! this = Some (meet_with a b) ∧ h' !! other = Some b) ∧
  (∃ h', ByReference.narrow_with this other h = Some h' ∧
         h' !! this = Some (narrow_with a b) ∧ h' !! other = Some b).
Proof.
  intros Hne Ha Hb.
  repeat apply conj; eexists;
    (split;
     [first [by apply by_reference_join_like
            | by apply by_reference_meet_like]
     | by rewrite lookup_insert_eq, lookup_insert_ne ]).
Qed.

End ThroughReferences.

Section ThroughReferencesAtClients.
Import MyAbstractValue.

#[local] Abbreviation Value l := (of_list Kind.Value l).

(** The claim C10 as stated, for any two references, fails: with the
    coarsest widening, [a.widen_with(a)] on the Value element {v1} leaves
    the object, which is also the argument, Top. *)
Lemma aliased_widen_with_changes_other :
  ¬ (∀ (h : gmap AbstractDomain.loc (t (gset nat)))
       (this other : AbstractDomain.loc) (a b : t (gset nat)),
       h !! this = Some a → h !! other = Some b →
       ∃ h', @ByReference.widen_with _ MyReleasingValue.value this other h
             = Some h' ∧
             h' !! other = Some b).
Proof.
  intros Hclaim.
  pose (b := Value [1]).
  pose (h := (<[1%positive := b]> ∅ : gmap AbstractDomain.loc (t (gset nat)))).
  assert (Hb : h !! 1%positive = Some b) by apply lookup_insert_eq.
  destruct (Hclaim h 1%positive 1%positive b b Hb Hb) as (h' & Hrun & Hother).
  unfold ByReference.widen_with in Hrun.
  rewrite (@by_reference_join_like _ MyReleasingValue.value _ h _ _ b b Hb Hb)
    in Hrun.
  injection Hrun as <-.
  rewrite lookup_insert_eq in Hother. injection Hother as Hkind _.
  discriminate Hkind.
Qed.

Lemma in_place_leaves_distinct_other_witness :
  let a := Value [1; 2] in
  let b := Value [3] in
  let h : gmap AbstractDomain.loc (t (gset nat)) :=
    <[1%positive := a]> (<[2%positive := b]> ∅) in
  ∃ h', ByReference.join_with 1%positive 2%positive h = Some h' ∧
        h' !! 1%positive = Some (join_with a b) ∧ h' !! 2%positive = Some b.
Proof.
  intros a b h.
  assert (Hne : 1%positive ≠ 2%positive) by discriminate.
  assert (Ha : h !! 1%positive = Some a) by apply lookup_insert_eq.
  assert (Hb : h !! 2%positive = Some b).
  { unfold h. rewrite lookup_insert_ne by discriminate. apply lookup_insert_eq. }
  exact (proj1 (in_place_leaves_distinct_other h _ _ a b Hne Ha Hb)).
Defined.

End ThroughReferencesAtClients.
